(** * Superposition memory: a shallow embedding of
    [src/models/superposition_memory.py] and the properties of its
    operations.

    Numbers.  Python's [float] and [complex] are read twice.  The
    properties that rest on the order of the scores and on the shape of the
    mapping are proved over the real numbers, where every operation is the
    exact one.  The properties that rest on the arithmetic itself (what
    [normalise] leaves behind, what a sequence of adds sums to) are settled
    in the module [Binary64], where a float is an IEEE 754 binary64 number
    and every operation rounds.

    Mappings.  A Python [dict] keeps its keys in insertion order, and the
    order decides ties in [collapse] and [as_ranked_list]; a [dict] is
    therefore an association list without repeated keys, in insertion
    order.

    Effects.  The methods of [SuperpositionMemory] read and write
    [self.hypotheses] and may raise; they are computations in a state and
    exception monad over the object. *)

From Stdlib Require Import List String Bool Reals Lra Permutation Sorted.
From Stdlib Require PrimFloat.
Import ListNotations.
Local Open Scope R_scope.

(** ** Complex numbers *)

Module Complex.

Record complex : Type := mkC { real : R; imag : R }.

(** A real number used where a complex one is expected. *)
Definition of_float (x : R) : complex := mkC x 0.

Definition zero : complex := of_float 0.

Definition add (a b : complex) : complex :=
  mkC (real a + real b) (imag a + imag b).

Definition conjugate (a : complex) : complex :=
  mkC (real a) (- imag a).

Definition mul (a b : complex) : complex :=
  mkC (real a * real b - imag a * imag b)
      (real a * imag b + imag a * real b).

Definition div (a b : complex) : complex :=
  let d := real b * real b + imag b * imag b in
  mkC ((real a * real b + imag a * imag b) / d)
      ((imag a * real b - real a * imag b) / d).

End Complex.

Export Complex(complex, mkC, real, imag).

(** ** Insertion-ordered dictionaries with string keys *)

Module Dict.

Section Dict.
Context {V : Type}.

Definition dict : Type := list (string * V).

Definition keys (d : dict) : list string := map fst d.
Definition values (d : dict) : list V := map snd d.
Definition items (d : dict) : list (string * V) := d.

(** [d.get(k)] *)
Fixpoint get (k : string) (d : dict) : option V :=
  match d with
  | [] => None
  | (k', v) :: d' => if String.eqb k' k then Some v else get k d'
  end.

(** [d.get(k, dflt)] *)
Definition get_default (k : string) (dflt : V) (d : dict) : V :=
  match get k d with Some v => v | None => dflt end.

(** [k in d] *)
Definition contains (k : string) (d : dict) : bool :=
  match get k d with Some _ => true | None => false end.

(** [d[k] = v]: an existing key keeps its position, a new key goes
    last. *)
Fixpoint set (k : string) (v : V) (d : dict) : dict :=
  match d with
  | [] => [(k, v)]
  | (k', v') :: d' =>
      if String.eqb k' k then (k', v) :: d' else (k', v') :: set k v d'
  end.

(** [{k: v for k, v in pairs}] *)
Definition of_pairs (pairs : list (string * V)) : dict :=
  fold_left (fun d kv => set (fst kv) (snd kv) d) pairs [].

(** [not d] *)
Definition is_empty (d : dict) : bool :=
  match d with [] => true | _ :: _ => false end.

(** A list is a dictionary when no key occurs twice. *)
Definition wf (d : dict) : Prop := NoDup (keys d).

End Dict.

Arguments dict V : clear implicits.

End Dict.

(** ** [list.sort(key=..., reverse=True)]

    Python's sort is stable, also with [reverse=True]: the result is in
    non-increasing key order and elements with equal keys keep their
    relative order.  The stable sort is modelled by insertion from the
    right, an element going in front of the first element whose key is not
    strictly greater. *)

Module PyList.

Section Sort.
Context {A : Type}.
Variable key : A -> R.

Fixpoint insert_desc (x : A) (l : list A) : list A :=
  match l with
  | [] => [x]
  | y :: l' =>
      if Rlt_dec (key x) (key y) then y :: insert_desc x l'
      else x :: y :: l'
  end.

Fixpoint sort_desc (l : list A) : list A :=
  match l with
  | [] => []
  | x :: l' => insert_desc x (sort_desc l')
  end.

End Sort.

(** [sum(xs)] *)
Definition sum (xs : list R) : R := fold_left Rplus xs 0.

End PyList.

(** ** The value type

    The class [Hypothesis]; its name is written in lower case here, the
    capitalised word being a command of the proof language. *)

Record hypothesis : Type := mkHypothesis {
  label : string;
  amplitude : complex
}.

(** The [probability] property. *)
Definition probability (self : hypothesis) : R :=
  real (Complex.mul (Complex.conjugate (amplitude self)) (amplitude self)).

(** ** The memory and its methods *)

Record SuperpositionMemory : Type := mkMemory {
  hypotheses : Dict.dict complex
}.

Inductive exn : Type :=
| ValueError (msg : string)
| KeyError (key : string)
| IndexError.

(** Computations on a memory object: an outcome and the object
    afterwards. *)
Definition M (A : Type) : Type :=
  SuperpositionMemory -> (exn + A) * SuperpositionMemory.

Definition ret {A} (a : A) : M A := fun self => (inr a, self).

Definition raise {A} (e : exn) : M A := fun self => (inl e, self).

Definition bind {A B} (c : M A) (k : A -> M B) : M B :=
  fun self =>
    match c self with
    | (inl e, self') => (inl e, self')
    | (inr a, self') => k a self'
    end.

Notation "x <- c ;; k" := (bind c (fun x => k))
  (at level 61, c at next level, right associativity).
Notation "c ;;; k" := (bind c (fun _ => k))
  (at level 61, right associativity).

(** [self.hypotheses] *)
Definition get_hypotheses : M (Dict.dict complex) :=
  fun self => (inr (hypotheses self), self).

(** [self.hypotheses[label]] *)
Definition getitem (label : string) : M complex :=
  d <- get_hypotheses ;;
  match Dict.get label d with
  | Some a => ret a
  | None => raise (KeyError label)
  end.

(** [self.hypotheses[label] = amplitude] *)
Definition setitem (label : string) (amplitude : complex) : M unit :=
  fun self => (inr tt, mkMemory (Dict.set label amplitude (hypotheses self))).

(** [for x in xs: body(x)] *)
Fixpoint for_each {A} (xs : list A) (body : A -> M unit) : M unit :=
  match xs with
  | [] => ret tt
  | x :: xs' => body x ;;; for_each xs' body
  end.

(** [__init__] *)
Definition init : SuperpositionMemory := mkMemory [].

Definition add (label : string) (amplitude : complex) : M unit :=
  d <- get_hypotheses ;;
  if Dict.contains label d then
    old <- getitem label ;;
    setitem label (Complex.add old amplitude)
  else
    setitem label amplitude.

Definition normalise : M unit :=
  d <- get_hypotheses ;;
  let total_probability :=
    PyList.sum
      (map (fun amp => real (Complex.mul (Complex.conjugate amp) amp))
           (Dict.values d)) in
  if Req_dec_T total_probability 0 then
    raise (ValueError "Cannot normalise an empty or zero-amplitude state")
  else
    let scale := Rpower total_probability (1 / 2) in
    for_each (Dict.items d)
      (fun item =>
         let '(label, amplitude) := item in
         setitem label (Complex.div amplitude (Complex.of_float scale))).

(** One round of the scoring loop of [collapse]: the pair appended to
    [scored] for a stored entry. *)
Definition score_entry (weight_map : Dict.dict R) (item : string * complex)
  : R * hypothesis :=
  let '(label, amplitude) := item in
  let probability :=
    real (Complex.mul (Complex.conjugate amplitude) amplitude) in
  let weight := Dict.get_default label 0 weight_map in
  let score := probability * (1 + weight) in
  (score, mkHypothesis label amplitude).

Definition collapse (context : list (string * R)) : M hypothesis :=
  d <- get_hypotheses ;;
  if Dict.is_empty d then
    raise (ValueError "Cannot collapse an empty superposition state")
  else
    let weight_map := Dict.of_pairs context in
    let scored :=
      fold_left (fun scored item => scored ++ [score_entry weight_map item])
                (Dict.items d) [] in
    let scored := PyList.sort_desc fst scored in
    match scored with
    | item :: _ => ret (snd item)
    | [] => raise IndexError
    end.

Definition as_ranked_list : M (list hypothesis) :=
  d <- get_hypotheses ;;
  let ranked :=
    map (fun item => mkHypothesis (fst item) (snd item)) (Dict.items d) in
  let ranked := PyList.sort_desc probability ranked in
  ret ranked.

Definition reset : M unit :=
  fun _ => (inr tt, mkMemory []).


(** ** The vocabulary of the specification *)

(** The squared magnitude [|a|^2] of an amplitude. *)
Definition norm_sq (a : complex) : R := real a * real a + imag a * imag a.

(** The total probability mass: the sum over the entries of [|a|^2]. *)
Definition total_mass (d : Dict.dict complex) : R :=
  fold_right Rplus 0 (map norm_sq (Dict.values d)).

(** A complex amplitude divided by a real number. *)
Definition divide_by (s : R) (a : complex) : complex :=
  mkC (real a / s) (imag a / s).

(** A complex amplitude multiplied by a real factor. *)
Definition scale_by (c : R) (a : complex) : complex :=
  mkC (c * real a) (c * imag a).

(** The stored entry as a [Hypothesis]. *)
Definition entry (item : string * complex) : hypothesis :=
  mkHypothesis (fst item) (snd item).

(** The weight paired with a label in the context: that of the last pair
    carrying the label, when there is one. *)
Fixpoint last_weight (l : string) (context : list (string * R)) : option R :=
  match context with
  | [] => None
  | (k, w) :: context' =>
      match last_weight l context' with
      | Some w' => Some w'
      | None => if String.eqb k l then Some w else None
      end
  end.

(** ... defaulting to 0 when the label has no context entry. *)
Definition context_weight (context : list (string * R)) (l : string) : R :=
  match last_weight l context with Some w => w | None => 0 end.

(** [score = probability * (1 + weight)] *)
Definition score (context : list (string * R)) (h : hypothesis) : R :=
  probability h * (1 + context_weight context (label h)).



(** The two errors of the class. *)
Definition collapse_error : exn :=
  ValueError "Cannot collapse an empty superposition state".

Definition normalise_error : exn :=
  ValueError "Cannot normalise an empty or zero-amplitude state".

(** The order and the key classes of a sort by [key]. *)

Section Order.
Context {A : Type}.
Variable key : A -> R.



End Order.


(** A sequence of [add] calls. *)
Definition run_adds (ops : list (string * complex)) : M unit :=
  for_each ops (fun op => add (fst op) (snd op)).




(** A hypothesis with its amplitude multiplied by a real factor. *)
Definition rescale (c : R) (h : hypothesis) : hypothesis :=
  mkHypothesis (label h) (scale_by c (amplitude h)).

(** ** Sample memories and contexts *)

(** Two hypotheses of equal probability, "A" inserted first. *)
Definition tie_memory : SuperpositionMemory :=
  mkMemory [("A"%string, mkC 1 0); ("B"%string, mkC 0 1)].

(** A context that names "B" twice and a label that is not stored. *)
Definition tie_context : list (string * R) :=
  [("B"%string, 5); ("C"%string, 7); ("B"%string, 0)].

(** "A" has probability 4, "B" probability 1. *)
Definition skew_memory : SuperpositionMemory :=
  mkMemory [("A"%string, mkC 2 0); ("B"%string, mkC 0 1)].

(** A non-empty memory without probability mass. *)
Definition null_memory : SuperpositionMemory :=
  mkMemory [("A"%string, Complex.zero); ("B"%string, Complex.zero)].

(** ** The demonstration scenario of the module *)

(** [run_demo]: three adds on a fresh memory, [normalise], a [collapse]
    whose result is dropped, and the ranked list. *)
Definition run_demo : exn + list hypothesis :=
  fst ((add "thermal anomaly" (mkC 0.6 0.1) ;;;
        add "sensor fault" (Complex.of_float 0.3) ;;;
        add "benign fluctuation" (Complex.of_float 0.1) ;;;
        normalise ;;;
        collapse [("thermal anomaly"%string, 0.2)] ;;;
        as_ranked_list) init).

(** ** The contextual reasoner, [src/models/contextual_reasoner.py] *)

(** [x ** 0.5] for a real [x]: the square root, which Python returns as a
    complex number on the imaginary axis when [x] is negative. *)
Definition pow_half (x : R) : complex :=
  if Rle_dec 0 x then Complex.of_float (sqrt x) else mkC 0 (sqrt (- x)).

(** [weights[k] += delta] and [weights[k] -= delta] on a local dictionary:
    the item is read, which raises on a missing key, and written back. *)
Definition iadd (k : string) (delta : R) (weights : Dict.dict R)
  : exn + Dict.dict R :=
  match Dict.get k weights with
  | Some w => inr (Dict.set k (w + delta) weights)
  | None => inl (KeyError k)
  end.

Definition isub (k : string) (delta : R) (weights : Dict.dict R)
  : exn + Dict.dict R :=
  match Dict.get k weights with
  | Some w => inr (Dict.set k (w - delta) weights)
  | None => inl (KeyError k)
  end.

(** The body of the loop over the features. *)
Definition feature_step (weights : Dict.dict R) (feature : string)
  : exn + Dict.dict R :=
  if String.eqb feature "redundant_sensor_agreement" then
    isub "sensor fault" 0.25 weights
  else if String.eqb feature "external_heat_source" then
    iadd "thermal anomaly" 0.35 weights
  else if String.eqb feature "maintenance_recently_completed" then
    iadd "benign fluctuation" 0.20 weights
  else
    inr weights.

Fixpoint feature_loop (features : list string) (weights : Dict.dict R)
  : exn + Dict.dict R :=
  match features with
  | [] => inr weights
  | feature :: features' =>
      match feature_step weights feature with
      | inl e => inl e
      | inr weights' => feature_loop features' weights'
      end
  end.

Definition _feature_to_context (features : list string)
  : exn + Dict.dict R :=
  feature_loop features
    [("thermal anomaly"%string, 0); ("sensor fault"%string, 0);
     ("benign fluctuation"%string, 0)].

(** [reason_about_signal]: the memory is local to the call, so the call is
    its outcome on a fresh memory. *)
Definition reason_about_signal (priors : Dict.dict R)
  (sensor_features : list string) : exn + hypothesis :=
  fst ((for_each (Dict.items priors)
          (fun item => let '(label, prior) := item in
                       add label (pow_half prior)) ;;;
        normalise ;;;
        match _feature_to_context sensor_features with
        | inl e => raise e
        | inr context_weights => collapse (Dict.items context_weights)
        end) init).

(** A weight dictionary with the three labels of the reasoner. *)
Definition weights3 (a b c : R) : Dict.dict R :=
  [("thermal anomaly"%string, a); ("sensor fault"%string, b);
   ("benign fluctuation"%string, c)].

(** The amplitudes [reason_about_signal] stores for the priors. *)
Definition prior_amplitudes (priors : Dict.dict R) : Dict.dict complex :=
  map (fun item => (fst item, pow_half (snd item))) priors.

(** The memory of [run_demo] after its three adds. *)
Definition demo_memory : SuperpositionMemory :=
  mkMemory [("thermal anomaly"%string, mkC 0.6 0.1);
            ("sensor fault"%string, Complex.of_float 0.3);
            ("benign fluctuation"%string, Complex.of_float 0.1)].

(** How often a feature occurs among the sensor features. *)
Definition occurrences (feature : string) (features : list string) : R :=
  INR (count_occ string_dec features feature).

(** The features the reasoner knows. *)
Definition known_feature (feature : string) : bool :=
  String.eqb feature "redundant_sensor_agreement"
  || String.eqb feature "external_heat_source"
  || String.eqb feature "maintenance_recently_completed".

(** The total of the absolute values of the priors. *)
Definition prior_mass (priors : Dict.dict R) : R :=
  fold_right Rplus 0 (map Rabs (Dict.values priors)).

(** Sample priors: the ones of the module's own example. *)
Definition sample_priors : Dict.dict R :=
  [("thermal anomaly"%string, 0.55); ("sensor fault"%string, 0.30);
   ("benign fluctuation"%string, 0.15)].

Definition sample_features : list string :=
  ["redundant_sensor_agreement"%string; "external_heat_source"%string].

(** ** The binary64 reading of the arithmetic

    [add], [normalise] and [as_ranked_list] once more, with Python's
    [float] as IEEE 754 binary64 and [complex] as a pair of such floats.
    Every operation rounds as the hardware does, so sums depend on their
    order, squares underflow and quotients of distinct numbers can
    coincide.  The claims that depend on the arithmetic are settled against
    this reading. *)

Module Binary64.
Import PrimFloat.
Local Open Scope float_scope.

Record complex : Type := mkC { real : float; imag : float }.

Definition complex_add (a b : complex) : complex :=
  mkC (real a + real b) (imag a + imag b).

Definition complex_conjugate (a : complex) : complex :=
  mkC (real a) (- imag a).

Definition complex_mul (a b : complex) : complex :=
  mkC (real a * real b - imag a * imag b)
      (real a * imag b + imag a * real b).

(** A complex number divided by a float: both parts are divided by it. *)
Definition complex_div (a : complex) (s : float) : complex :=
  mkC (real a / s) (imag a / s).

(** [x ** 0.5], taken as the correctly rounded square root. *)
Definition pow_half (x : float) : float := sqrt x.

(** [sum(xs)]: the items are added from the left, starting from zero. *)
Definition sum (xs : list float) : float := fold_left PrimFloat.add xs 0.

(** [list.sort(key=..., reverse=True)] on float keys: the stable descending
    sort, by insertion as above, with the float comparison. *)
Fixpoint insert_desc {A : Type} (key : A -> float) (x : A) (l : list A)
  : list A :=
  match l with
  | [] => [x]
  | y :: l' =>
      if key x <? key y then y :: insert_desc key x l'
      else x :: y :: l'
  end.

Fixpoint sort_desc {A : Type} (key : A -> float) (l : list A) : list A :=
  match l with
  | [] => []
  | x :: l' => insert_desc key x (sort_desc key l')
  end.

Record hypothesis : Type := mkHypothesis {
  label : string;
  amplitude : complex
}.

Definition probability (self : hypothesis) : float :=
  real (complex_mul (complex_conjugate (amplitude self)) (amplitude self)).

Record SuperpositionMemory : Type := mkMemory {
  hypotheses : Dict.dict complex
}.

Definition M (A : Type) : Type :=
  SuperpositionMemory -> (exn + A) * SuperpositionMemory.

Definition ret {A} (a : A) : M A := fun self => (inr a, self).

Definition raise {A} (e : exn) : M A := fun self => (inl e, self).

Definition bind {A B} (c : M A) (k : A -> M B) : M B :=
  fun self =>
    match c self with
    | (inl e, self') => (inl e, self')
    | (inr a, self') => k a self'
    end.

Definition get_hypotheses : M (Dict.dict complex) :=
  fun self => (inr (hypotheses self), self).

Definition getitem (label : string) : M complex :=
  bind get_hypotheses (fun d =>
    match Dict.get label d with
    | Some a => ret a
    | None => raise (KeyError label)
    end).

Definition setitem (label : string) (amplitude : complex) : M unit :=
  fun self => (inr tt, mkMemory (Dict.set label amplitude (hypotheses self))).

Fixpoint for_each {A} (xs : list A) (body : A -> M unit) : M unit :=
  match xs with
  | [] => ret tt
  | x :: xs' => bind (body x) (fun _ => for_each xs' body)
  end.

Definition init : SuperpositionMemory := mkMemory [].

Definition add (label : string) (amplitude : complex) : M unit :=
  bind get_hypotheses (fun d =>
    if Dict.contains label d then
      bind (getitem label) (fun old =>
        setitem label (complex_add old amplitude))
    else
      setitem label amplitude).

Definition normalise : M unit :=
  bind get_hypotheses (fun d =>
    let total_probability :=
      sum (map (fun amp => real (complex_mul (complex_conjugate amp) amp))
               (Dict.values d)) in
    if total_probability =? 0 then
      raise (ValueError "Cannot normalise an empty or zero-amplitude state")
    else
      let scale := pow_half total_probability in
      for_each (Dict.items d)
        (fun item =>
           let '(label, amplitude) := item in
           setitem label (complex_div amplitude scale))).

Definition as_ranked_list : M (list hypothesis) :=
  bind get_hypotheses (fun d =>
    let ranked :=
      map (fun item => mkHypothesis (fst item) (snd item)) (Dict.items d) in
    let ranked := sort_desc probability ranked in
    ret ranked).

(** *** The vocabulary of the statements *)

(** The total probability mass [normalise] computes. *)
Definition total_probability (d : Dict.dict complex) : float :=
  sum (map (fun amp => real (complex_mul (complex_conjugate amp) amp))
           (Dict.values d)).

(** An amplitude that is exactly zero: both parts are a zero of either
    sign. *)
Definition zero_amplitude (a : complex) : Prop :=
  (real a = 0 \/ real a = -0) /\ (imag a = 0 \/ imag a = -0).

Definition entry (item : string * complex) : hypothesis :=
  mkHypothesis (fst item) (snd item).

(** A sequence of [add] calls, and the amplitudes it supplies for a label,
    in the order of the calls. *)
Definition run_adds (ops : list (string * complex)) : M unit :=
  for_each ops (fun op => add (fst op) (snd op)).

Definition supplied (l : string) (ops : list (string * complex))
  : list complex :=
  map snd (filter (fun op => String.eqb (fst op) l) ops).

(** The amplitude a label holds after a sequence of adds: the amplitudes
    supplied for it, added from the left to the amplitude it held, or to
    the first of them when it held none. *)
Definition accumulated (l : string) (d : Dict.dict complex)
  (ops : list (string * complex)) : option complex :=
  match Dict.get l d with
  | Some a0 => Some (fold_left complex_add (supplied l ops) a0)
  | None =>
      match supplied l ops with
      | [] => None
      | a :: rest => Some (fold_left complex_add rest a)
      end
  end.

(** *** Sample memories *)

(** One amplitude, 2^-600, whose square underflows to zero. *)
Definition underflow_memory : SuperpositionMemory :=
  mkMemory [("A"%string, mkC 0x1p-600 0)].


(** The amplitudes 1 and i. *)
Definition unit_memory : SuperpositionMemory :=
  mkMemory [("A"%string, mkC 1 0); ("B"%string, mkC 0 1)].

(** Two amplitudes one unit in the last place apart. *)
Definition close_memory : SuperpositionMemory :=
  mkMemory [("A"%string, mkC 0x1.fp+0 0);
            ("B"%string, mkC 0x1.f000000000001p+0 0)].

(** The adds of 1, 10^16 and -10^16 to one label, in two orders. *)
Definition adds_small_first : list (string * complex) :=
  [("A"%string, mkC 1 0); ("A"%string, mkC 1e16 0);
   ("A"%string, mkC (-1e16) 0)].

Definition adds_small_last : list (string * complex) :=
  [("A"%string, mkC 1e16 0); ("A"%string, mkC (-1e16) 0);
   ("A"%string, mkC 1 0)].

End Binary64.

(** * Properties *)

(** ** Complex arithmetic *)

Lemma complex_eq (a b : complex) :
  real a = real b -> imag a = imag b -> a = b.
Proof. destruct a, b; simpl; intros -> ->; reflexivity. Qed.

Lemma conj_mul_real (a : complex) :
  real (Complex.mul (Complex.conjugate a) a) = norm_sq a.
Proof. unfold norm_sq; simpl; ring. Qed.

Lemma probability_norm_sq (h : hypothesis) :
  probability h = norm_sq (amplitude h).
Proof. apply conj_mul_real. Qed.

Lemma norm_sq_nonneg (a : complex) : 0 <= norm_sq a.
Proof. unfold norm_sq; nra. Qed.

Lemma div_of_float (a : complex) (s : R) :
  s <> 0 -> Complex.div a (Complex.of_float s) = divide_by s a.
Proof.
  intros Hs; apply complex_eq; simpl; field; nra.
Qed.

Lemma divide_by_scale (a : complex) (s : R) :
  divide_by s a = scale_by (/ s) a.
Proof. apply complex_eq; simpl; unfold Rdiv; ring. Qed.

Lemma norm_sq_scale_by (c : R) (a : complex) :
  norm_sq (scale_by c a) = c * c * norm_sq a.
Proof. unfold norm_sq; simpl; ring. Qed.

(** ** Dictionaries *)

Section DictFacts.
Context {V : Type}.
Implicit Types (d : Dict.dict V) (k : string) (v : V).

Lemma get_set_same k v d : Dict.get k (Dict.set k v d) = Some v.
Proof.
  induction d as [|[k' v'] d IH]; simpl.
  - now rewrite String.eqb_refl.
  - destruct (String.eqb k' k) eqn:E; simpl; rewrite E; auto.
Qed.

Lemma get_set_other k k' v d :
  k <> k' -> Dict.get k' (Dict.set k v d) = Dict.get k' d.
Proof.
  intros Hne; induction d as [|[k0 v0] d IH]; simpl.
  - apply String.eqb_neq in Hne; now rewrite Hne.
  - destruct (String.eqb k0 k) eqn:E; simpl.
    + apply String.eqb_eq in E; subst k0.
      apply String.eqb_neq in Hne; now rewrite Hne.
    + now rewrite IH.
Qed.

Lemma get_none_notin k d : Dict.get k d = None <-> ~ In k (Dict.keys d).
Proof.
  induction d as [|[k' v'] d IH]; simpl.
  - tauto.
  - destruct (String.eqb k' k) eqn:E.
    + apply String.eqb_eq in E; split; [discriminate | tauto].
    + apply String.eqb_neq in E; rewrite IH; tauto.
Qed.

Lemma get_in k v d : Dict.get k d = Some v -> In (k, v) d.
Proof.
  induction d as [|[k' v'] d IH]; simpl; [discriminate|].
  destruct (String.eqb k' k) eqn:E.
  - apply String.eqb_eq in E; intros [= ->]; subst; auto.
  - auto.
Qed.

Lemma in_get k v d : Dict.wf d -> In (k, v) d -> Dict.get k d = Some v.
Proof.
  unfold Dict.wf; induction d as [|[k' v'] d IH]; simpl; [tauto|].
  intros Hnd [Heq | Hin]; inversion Hnd as [|? ? Hni Hnd']; subst.
  - injection Heq as -> ->; now rewrite String.eqb_refl.
  - destruct (String.eqb k' k) eqn:E; [|auto].
    apply String.eqb_eq in E; subst k'.
    exfalso; apply Hni; change k with (fst (k, v)); now apply in_map.
Qed.

Lemma contains_in k d : Dict.contains k d = true <-> In k (Dict.keys d).
Proof.
  unfold Dict.contains; destruct (Dict.get k d) eqn:E.
  - split; [intros _ | reflexivity].
    apply get_in in E; change k with (fst (k, v)); now apply in_map.
  - split; [discriminate|]; intros Hin.
    now apply get_none_notin in E.
Qed.

Lemma set_fresh k v d : Dict.get k d = None -> Dict.set k v d = d ++ [(k, v)].
Proof.
  induction d as [|[k' v'] d IH]; simpl; [reflexivity|].
  destruct (String.eqb k' k); [discriminate|].
  now intros H; rewrite IH.
Qed.

Lemma set_app_notin k v (p q : Dict.dict V) :
  ~ In k (Dict.keys p) -> Dict.set k v (p ++ q) = p ++ Dict.set k v q.
Proof.
  induction p as [|[k' v'] p IH]; simpl; [reflexivity|].
  intros Hni; destruct (String.eqb k' k) eqn:E.
  - apply String.eqb_eq in E; tauto.
  - rewrite IH; tauto.
Qed.

Lemma keys_set_present k v d :
  In k (Dict.keys d) -> Dict.keys (Dict.set k v d) = Dict.keys d.
Proof.
  induction d as [|[k' v'] d IH]; simpl; [tauto|].
  destruct (String.eqb k' k) eqn:E; simpl; [reflexivity|].
  apply String.eqb_neq in E; intros [?|Hin]; [tauto|]; now rewrite IH.
Qed.

(** Rewriting every value of a dictionary through its own items, one
    [d[k] = f v] at a time, is a map over the values. *)
Lemma fold_set_items (f : V -> V) (suf pre : Dict.dict V) :
  Dict.wf (pre ++ suf) ->
  fold_left (fun acc item => Dict.set (fst item) (f (snd item)) acc) suf
            (map (fun item => (fst item, f (snd item))) pre ++ suf)
  = map (fun item => (fst item, f (snd item))) (pre ++ suf).
Proof.
  revert pre; induction suf as [|[k v] suf IH]; intros pre Hwf; simpl.
  - now rewrite !app_nil_r.
  - assert (Hni : ~ In k (Dict.keys pre)).
    { unfold Dict.wf, Dict.keys in Hwf; rewrite map_app in Hwf; simpl in Hwf.
      apply NoDup_remove_2 in Hwf; intros Hin; apply Hwf, in_or_app; auto. }
    rewrite set_app_notin.
    2:{ unfold Dict.keys; rewrite map_map; simpl; exact Hni. }
    simpl; rewrite String.eqb_refl.
    replace (pre ++ (k, v) :: suf) with ((pre ++ [(k, v)]) ++ suf) in *
      by (rewrite <- app_assoc; reflexivity).
    rewrite <- (IH (pre ++ [(k, v)]) Hwf).
    rewrite map_app; simpl; rewrite <- app_assoc; reflexivity.
Qed.

End DictFacts.

(** The weight map built from the context holds, for every label, the
    weight of the label's last pair. *)
Lemma get_fold_set (l : string) (context : list (string * R))
  (d : Dict.dict R) :
  Dict.get l (fold_left (fun d kv => Dict.set (fst kv) (snd kv) d) context d)
  = match last_weight l context with
    | Some w => Some w
    | None => Dict.get l d
    end.
Proof.
  revert d; induction context as [|[k w] context IH]; intros d; simpl.
  - reflexivity.
  - rewrite IH; destruct (last_weight l context); [reflexivity|].
    destruct (String.eqb k l) eqn:E.
    + apply String.eqb_eq in E; subst; apply get_set_same.
    + apply String.eqb_neq in E; now apply get_set_other.
Qed.

Lemma get_of_pairs (l : string) (context : list (string * R)) :
  Dict.get l (Dict.of_pairs context) = last_weight l context.
Proof.
  unfold Dict.of_pairs; rewrite get_fold_set.
  now destruct (last_weight l context).
Qed.

Lemma get_default_of_pairs (l : string) (context : list (string * R)) :
  Dict.get_default l 0 (Dict.of_pairs context) = context_weight context l.
Proof.
  unfold Dict.get_default, context_weight; now rewrite get_of_pairs.
Qed.

Lemma last_weight_app (l : string) (c1 c2 : list (string * R)) :
  last_weight l (c1 ++ c2)
  = match last_weight l c2 with
    | Some w => Some w
    | None => last_weight l c1
    end.
Proof.
  induction c1 as [|[k w] c1 IH]; simpl.
  - now destruct (last_weight l c2).
  - rewrite IH; now destruct (last_weight l c2).
Qed.



(** ** The stable descending sort *)

Section SortFacts.
Context {A : Type}.
Variable key : A -> R.

Lemma insert_desc_perm (x : A) (l : list A) :
  Permutation (PyList.insert_desc key x l) (x :: l).
Proof.
  induction l as [|y l IH]; simpl; [reflexivity|].
  destruct (Rlt_dec (key x) (key y)); [|reflexivity].
  rewrite IH; apply perm_swap.
Qed.

Lemma sort_desc_perm (l : list A) : Permutation (PyList.sort_desc key l) l.
Proof.
  induction l as [|x l IH]; simpl; [reflexivity|].
  rewrite insert_desc_perm; now constructor.
Qed.





(** The head of the sorted list is the first element of the list whose key
    is maximal. *)
Lemma sort_desc_head (l : list A) :
  l <> [] ->
  exists pre b post,
    l = pre ++ b :: post /\
    hd_error (PyList.sort_desc key l) = Some b /\
    Forall (fun x => key x < key b) pre /\
    Forall (fun x => key x <= key b) post.
Proof.
  induction l as [|x l IH]; [congruence|intros _].
  destruct l as [|y l].
  - exists [], x, []; simpl; auto.
  - destruct IH as (pre & b & post & Heq & Hhd & Hpre & Hpost); [discriminate|].
    change (PyList.sort_desc key (x :: y :: l))
      with (PyList.insert_desc key x (PyList.sort_desc key (y :: l))).
    destruct (PyList.sort_desc key (y :: l)) as [|b' s]; [discriminate|].
    injection Hhd as ->; simpl.
    destruct (Rlt_dec (key x) (key b)) as [Hlt | Hge].
    + exists (x :: pre), b, post; rewrite Heq; simpl; auto.
    + exists [], x, (y :: l); simpl; repeat split; auto.
      rewrite Heq; apply Forall_app; split.
      * eapply Forall_impl; [|exact Hpre]; simpl; intros; lra.
      * constructor; [lra|].
        eapply Forall_impl; [|exact Hpost]; simpl; intros; lra.
Qed.

End SortFacts.

(** Sorting commutes with a map that respects the strict order of the
    keys. *)
Lemma sort_desc_map {A B : Type} (keyA : A -> R) (keyB : B -> R)
  (f : A -> B) (l : list A) :
  (forall x y, keyA x < keyA y <-> keyB (f x) < keyB (f y)) ->
  PyList.sort_desc keyB (map f l) = map f (PyList.sort_desc keyA l).
Proof.
  intros Hkey.
  assert (Hins : forall x s,
    PyList.insert_desc keyB (f x) (map f s)
    = map f (PyList.insert_desc keyA x s)).
  { intros x s; induction s as [|y s IH]; simpl; [reflexivity|].
    destruct (Rlt_dec (keyB (f x)) (keyB (f y))) as [H1 | H1],
             (Rlt_dec (keyA x) (keyA y)) as [H2 | H2]; simpl.
    - now rewrite IH.
    - apply Hkey in H1; tauto.
    - apply Hkey in H2; tauto.
    - reflexivity. }
  induction l as [|x l IH]; simpl; [reflexivity|].
  now rewrite IH, Hins.
Qed.

(** The strict greater-than scan against the head of the stable sort. *)
Lemma insert_desc_hd {A : Type} (key : A -> R) (x : A) (s : list A) :
  hd_error (PyList.insert_desc key x s)
  = Some (match hd_error s with
          | None => x
          | Some t => if Rlt_dec (key x) (key t) then t else x
          end).
Proof.
  destruct s as [|t s]; simpl; [reflexivity|].
  now destruct (Rlt_dec (key x) (key t)).
Qed.




(** ** What the methods compute *)

Lemma sum_fold_right (xs : list R) : PyList.sum xs = fold_right Rplus 0 xs.
Proof.
  unfold PyList.sum.
  assert (H : forall a, fold_left Rplus xs a = a + fold_right Rplus 0 xs).
  { induction xs as [|x xs IH]; intros a; simpl; [ring|].
    rewrite IH; ring. }
  rewrite H; ring.
Qed.

Lemma scored_loop {A B : Type} (f : A -> B) (items : list A) (acc : list B) :
  fold_left (fun scored item => scored ++ [f item]) items acc
  = acc ++ map f items.
Proof.
  revert acc; induction items as [|x items IH]; intros acc; simpl.
  - now rewrite app_nil_r.
  - rewrite IH, <- app_assoc; reflexivity.
Qed.

Lemma score_entry_eq (context : list (string * R)) (item : string * complex) :
  score_entry (Dict.of_pairs context) item
  = (score context (entry item), entry item).
Proof.
  destruct item as [l a]; unfold score_entry, score, probability, entry.
  simpl; now rewrite get_default_of_pairs.
Qed.

(** [collapse] returns the head of the entries sorted by score and keeps
    the memory. *)
Lemma collapse_sorted (context : list (string * R))
  (self : SuperpositionMemory) :
  collapse context self
  = match hd_error (PyList.sort_desc (fun item => score context (entry item))
                                     (hypotheses self)) with
    | Some item => (inr (entry item), self)
    | None => (inl collapse_error, self)
    end.
Proof.
  unfold collapse, bind, get_hypotheses, Dict.items.
  destruct (hypotheses self) as [|item d] eqn:Hd; [reflexivity|].
  cbv beta iota delta [Dict.is_empty].
  rewrite scored_loop; cbn [app].
  rewrite (map_ext _ (fun item => (score context (entry item), entry item)))
    by (intros; apply score_entry_eq).
  rewrite (sort_desc_map (fun item => score context (entry item)) fst)
    by (intros; simpl; tauto).
  pose proof (sort_desc_perm (fun item => score context (entry item))
                (item :: d)) as Hperm.
  destruct (PyList.sort_desc _ (item :: d)) as [|top s].
  - apply Permutation_nil in Hperm; discriminate.
  - reflexivity.
Qed.



Lemma as_ranked_list_eq (self : SuperpositionMemory) :
  as_ranked_list self
  = (inr (PyList.sort_desc probability (map entry (hypotheses self))), self).
Proof. reflexivity. Qed.

Lemma add_eq (l : string) (a : complex) (self : SuperpositionMemory) :
  add l a self
  = (inr tt,
     mkMemory (match Dict.get l (hypotheses self) with
               | None => hypotheses self ++ [(l, a)]
               | Some old => Dict.set l (Complex.add old a) (hypotheses self)
               end)).
Proof.
  unfold add, bind, get_hypotheses, getitem, bind, get_hypotheses,
    Dict.contains, setitem, ret.
  destruct (Dict.get l (hypotheses self)) eqn:E; simpl; rewrite ?E.
  - reflexivity.
  - now rewrite set_fresh.
Qed.

Lemma fold_left_pointwise {A B : Type} (f g : A -> B -> A) (l : list B)
  (a : A) :
  (forall a x, f a x = g a x) -> fold_left f l a = fold_left g l a.
Proof.
  intros H; revert a; induction l as [|x l IH]; intros a; simpl.
  - reflexivity.
  - now rewrite H, IH.
Qed.

Lemma for_each_setitem (f : complex -> complex)
  (items : list (string * complex)) (self : SuperpositionMemory) :
  for_each items
    (fun item => let '(label, amplitude) := item in
                 setitem label (f amplitude)) self
  = (inr tt,
     mkMemory (fold_left
                 (fun acc item => Dict.set (fst item) (f (snd item)) acc)
                 items (hypotheses self))).
Proof.
  revert self; induction items as [|[l a] items IH]; intros self; simpl.
  - now destruct self.
  - unfold bind, setitem at 1; rewrite IH; reflexivity.
Qed.

Lemma total_probability_eq (d : Dict.dict complex) :
  PyList.sum
    (map (fun amp => real (Complex.mul (Complex.conjugate amp) amp))
         (Dict.values d))
  = total_mass d.
Proof.
  rewrite sum_fold_right; unfold total_mass; f_equal.
  apply map_ext; intros; apply conj_mul_real.
Qed.

Lemma total_mass_nonneg (d : Dict.dict complex) : 0 <= total_mass d.
Proof.
  unfold total_mass, Dict.values; induction d as [|[l a] d IH]; simpl.
  - lra.
  - pose proof (norm_sq_nonneg a); lra.
Qed.

Lemma scale_eq (t : R) : 0 < t -> Rpower t (1 / 2) = sqrt t.
Proof.
  intros Ht; replace (1 / 2) with (/ 2) by lra; now apply Rpower_sqrt.
Qed.

(** [normalise] raises on a zero mass and otherwise divides every stored
    amplitude by the square root of the mass. *)
Lemma normalise_error_eq (self : SuperpositionMemory) :
  total_mass (hypotheses self) = 0 ->
  normalise self = (inl normalise_error, self).
Proof.
  intros H0; unfold normalise, bind, get_hypotheses.
  rewrite total_probability_eq.
  destruct (Req_dec_T (total_mass (hypotheses self)) 0); [reflexivity|tauto].
Qed.

Lemma normalise_fold_eq (self : SuperpositionMemory) :
  total_mass (hypotheses self) <> 0 ->
  normalise self
  = (inr tt,
     mkMemory
       (fold_left
          (fun acc item =>
             Dict.set (fst item)
               (divide_by (sqrt (total_mass (hypotheses self))) (snd item))
               acc)
          (hypotheses self) (hypotheses self))).
Proof.
  intros H0; unfold normalise, bind, get_hypotheses.
  rewrite total_probability_eq.
  destruct (Req_dec_T (total_mass (hypotheses self)) 0); [tauto|].
  pose proof (total_mass_nonneg (hypotheses self)) as Hge.
  assert (Hpos : 0 < total_mass (hypotheses self)) by lra.
  rewrite (scale_eq _ Hpos).
  assert (Hs : sqrt (total_mass (hypotheses self)) <> 0).
  { pose proof (sqrt_lt_R0 _ Hpos); lra. }
  unfold Dict.items.
  rewrite (for_each_setitem
             (fun a => Complex.div a
                (Complex.of_float (sqrt (total_mass (hypotheses self)))))).
  do 2 f_equal.
  apply fold_left_pointwise; intros acc item.
  now rewrite div_of_float.
Qed.

Lemma normalise_ok_eq (self : SuperpositionMemory) :
  Dict.wf (hypotheses self) ->
  total_mass (hypotheses self) <> 0 ->
  normalise self
  = (inr tt,
     mkMemory
       (map (fun item =>
               (fst item,
                divide_by (sqrt (total_mass (hypotheses self))) (snd item)))
            (hypotheses self))).
Proof.
  intros Hwf H0; rewrite normalise_fold_eq by exact H0.
  do 2 f_equal.
  exact (fold_set_items
           (divide_by (sqrt (total_mass (hypotheses self))))
           (hypotheses self) [] Hwf).
Qed.

(** ** [collapse] *)

Lemma entry_pair (item : string * complex) :
  (label (entry item), amplitude (entry item)) = item.
Proof. now destruct item. Qed.

(** On a non-empty memory [collapse] returns the first entry, in mapping
    order, whose score is maximal, and keeps the memory. *)
Lemma collapse_first_max (context : list (string * R))
  (self : SuperpositionMemory) :
  hypotheses self <> [] ->
  exists pre item post,
    hypotheses self = pre ++ item :: post /\
    collapse context self = (inr (entry item), self) /\
    Forall (fun x => score context (entry x) < score context (entry item))
           pre /\
    Forall (fun x => score context (entry x) <= score context (entry item))
           post.
Proof.
  intros Hne.
  destruct (sort_desc_head (fun item => score context (entry item))
              (hypotheses self) Hne)
    as (pre & item & post & Heq & Hhd & Hpre & Hpost).
  exists pre, item, post; repeat split; auto.
  now rewrite collapse_sorted, Hhd.
Qed.




(** C5: for every context, [collapse] raises the empty-state error exactly
    when the memory holds no hypotheses, it raises nothing else, and it
    returns a hypothesis exactly when the memory is not empty, whatever the
    stored amplitudes are. *)
Theorem collapse_raises_iff_empty (self : SuperpositionMemory)
  (context : list (string * R)) :
  (fst (collapse context self) = inl collapse_error
   <-> hypotheses self = []) /\
  ((exists e, fst (collapse context self) = inl e)
   <-> hypotheses self = []) /\
  ((exists h, fst (collapse context self) = inr h)
   <-> hypotheses self <> []).
Proof.
  destruct (hypotheses self) as [|item d] eqn:Hd.
  - assert (Hrun : collapse context self = (inl collapse_error, self))
      by (rewrite collapse_sorted, Hd; reflexivity).
    rewrite Hrun; simpl; repeat split; auto.
    + intros _; now exists collapse_error.
    + intros [h Hh]; discriminate.
    + congruence.
  - destruct (collapse_first_max context self)
      as (pre & w & post & _ & Hrun & _); [congruence|].
    rewrite Hrun; simpl; repeat split; try discriminate.
    + intros [e He]; discriminate.
    + intros _; now exists (entry w).
Qed.

(** C8: on a non-empty memory [collapse] leaves the stored mapping as it
    was, and the hypothesis it returns carries the amplitude stored at the
    winning label. *)
Theorem collapse_frame (self : SuperpositionMemory)
  (context : list (string * R)) :
  Dict.wf (hypotheses self) ->
  hypotheses self <> [] ->
  exists h,
    collapse context self = (inr h, self) /\
    snd (collapse context self) = self /\
    Dict.get (label h) (hypotheses self) = Some (amplitude h).
Proof.
  intros Hwf Hne.
  destruct (collapse_first_max context self Hne)
    as (pre & item & post & Heq & Hrun & _).
  exists (entry item); rewrite Hrun; repeat split.
  apply in_get; [exact Hwf|].
  rewrite entry_pair, Heq; apply in_or_app; right; now left.
Qed.


(** ** [as_ranked_list] *)


(** ** [normalise] in the exact reading *)

Lemma probability_rescale (c : R) (h : hypothesis) :
  probability (rescale c h) = c * c * probability h.
Proof.
  rewrite !probability_norm_sq; apply norm_sq_scale_by.
Qed.

Lemma sqrt_mass_pos (d : Dict.dict complex) :
  total_mass d <> 0 -> 0 < sqrt (total_mass d).
Proof.
  intros H0; pose proof (total_mass_nonneg d); apply sqrt_lt_R0; lra.
Qed.

Lemma normalise_scaled (self : SuperpositionMemory) :
  Dict.wf (hypotheses self) ->
  total_mass (hypotheses self) <> 0 ->
  normalise self
  = (inr tt,
     mkMemory
       (map (fun item =>
               (fst item,
                scale_by (/ sqrt (total_mass (hypotheses self))) (snd item)))
            (hypotheses self))).
Proof.
  intros Hwf H0; rewrite normalise_ok_eq by assumption.
  do 2 f_equal; apply map_ext; intros item.
  now rewrite divide_by_scale.
Qed.

(** ** The theorems at concrete memories *)

Ltac decide_rlt :=
  repeat match goal with
         | |- context [Rlt_dec ?a ?b] =>
             destruct (Rlt_dec a b);
             try (exfalso;
                  unfold score, probability, context_weight, tie_context in *;
                  simpl in *; lra)
         end.

Lemma tie_memory_wf : Dict.wf (hypotheses tie_memory).
Proof.
  unfold Dict.wf; simpl; repeat constructor; simpl; intuition discriminate.
Defined.

Lemma tie_memory_nonempty : hypotheses tie_memory <> [].
Proof. discriminate. Defined.

Example collapse_tie_first_wins :
  collapse tie_context tie_memory
  = (inr (mkHypothesis "A" (mkC 1 0)), tie_memory).
Proof. rewrite collapse_sorted; simpl; decide_rlt; reflexivity. Qed.

Example collapse_context_overturns :
  collapse [("B"%string, 4)] skew_memory
  = (inr (mkHypothesis "B" (mkC 0 1)), skew_memory).
Proof. rewrite collapse_sorted; simpl; decide_rlt; reflexivity. Qed.

Example collapse_neutral_context :
  collapse [] skew_memory = (inr (mkHypothesis "A" (mkC 2 0)), skew_memory).
Proof. rewrite collapse_sorted; simpl; decide_rlt; reflexivity. Qed.

Example collapse_null_memory :
  collapse [] null_memory
  = (inr (mkHypothesis "A" Complex.zero), null_memory).
Proof. rewrite collapse_sorted; simpl; decide_rlt; reflexivity. Qed.

Example collapse_init : collapse tie_context init = (inl collapse_error, init).
Proof. reflexivity. Qed.

Example normalise_null_memory :
  normalise null_memory = (inl normalise_error, null_memory).
Proof.
  apply normalise_error_eq; unfold total_mass, norm_sq; simpl; ring.
Qed.

Example normalise_init : normalise init = (inl normalise_error, init).
Proof. apply normalise_error_eq; reflexivity. Qed.

Example as_ranked_list_tie :
  as_ranked_list tie_memory
  = (inr [mkHypothesis "A" (mkC 1 0); mkHypothesis "B" (mkC 0 1)],
     tie_memory).
Proof.
  rewrite as_ranked_list_eq; simpl; decide_rlt; reflexivity.
Qed.

Example run_adds_interleaved :
  hypotheses
    (snd (run_adds [("A"%string, mkC 1 0); ("B"%string, mkC 0 1);
                    ("A"%string, mkC 2 3)] init))
  = [("A"%string, Complex.add (mkC 1 0) (mkC 2 3)); ("B"%string, mkC 0 1)].
Proof. reflexivity. Qed.



Lemma collapse_frame_witness :
  Dict.wf (hypotheses tie_memory) /\
  hypotheses tie_memory <> [] /\
  exists h,
    collapse tie_context tie_memory = (inr h, tie_memory) /\
    snd (collapse tie_context tie_memory) = tie_memory /\
    Dict.get (label h) (hypotheses tie_memory) = Some (amplitude h).
Proof.
  split; [exact tie_memory_wf|]; split; [exact tie_memory_nonempty|].
  exact (collapse_frame tie_memory tie_context tie_memory_wf
           tie_memory_nonempty).
Defined.



(** The last pair decides: with the pairs of "B" in one order "B" wins, in
    the other order "A" does. *)
Example collapse_uses_last_weight :
  collapse [("B"%string, 0); ("B"%string, 4)] skew_memory
  = (inr (mkHypothesis "B" (mkC 0 1)), skew_memory) /\
  collapse [("B"%string, 4); ("B"%string, 0)] skew_memory
  = (inr (mkHypothesis "A" (mkC 2 0)), skew_memory).
Proof.
  split; rewrite collapse_sorted; simpl; decide_rlt; reflexivity.
Qed.

(** * Further properties of the module *)

(** ** The value type and the state management *)

Lemma contains_cons {V : Type} (k k' : string) (v : V) (d : Dict.dict V) :
  Dict.contains k ((k', v) :: d)
  = if String.eqb k' k then true else Dict.contains k d.
Proof.
  unfold Dict.contains; simpl; now destruct (String.eqb k' k).
Qed.

Lemma keys_set {V : Type} (k : string) (v : V) (d : Dict.dict V) :
  Dict.keys (Dict.set k v d)
  = Dict.keys d ++ (if Dict.contains k d then [] else [k]).
Proof.
  induction d as [|[k' v'] d IH]; [reflexivity|].
  rewrite contains_cons; simpl.
  destruct (String.eqb k' k); simpl.
  - now rewrite app_nil_r.
  - now rewrite IH.
Qed.

Lemma add_hypotheses (l : string) (a : complex) (self : SuperpositionMemory) :
  hypotheses (snd (add l a self))
  = Dict.set l (match Dict.get l (hypotheses self) with
                | None => a
                | Some old => Complex.add old a
                end) (hypotheses self).
Proof.
  rewrite add_eq; simpl.
  destruct (Dict.get l (hypotheses self)) eqn:E; [reflexivity|].
  now rewrite set_fresh.
Qed.

(** X2: [add] never raises and never removes or moves a label: a stored label
    keeps its place, a new label goes last, and the amplitudes of the other
    labels stay as they were. *)
Theorem add_keeps_labels (self : SuperpositionMemory) (l : string)
  (a : complex) :
  fst (add l a self) = inr tt /\
  Dict.keys (hypotheses (snd (add l a self)))
  = Dict.keys (hypotheses self)
    ++ (if Dict.contains l (hypotheses self) then [] else [l]) /\
  (forall k, k <> l ->
     Dict.get k (hypotheses (snd (add l a self)))
     = Dict.get k (hypotheses self)).
Proof.
  split; [now rewrite add_eq|]; rewrite add_hypotheses; split.
  - apply keys_set.
  - intros k Hk; apply get_set_other; congruence.
Qed.

Lemma add_wf (l : string) (a : complex) (self : SuperpositionMemory) :
  Dict.wf (hypotheses self) -> Dict.wf (hypotheses (snd (add l a self))).
Proof.
  unfold Dict.wf; intros Hwf; rewrite add_hypotheses, keys_set.
  destruct (Dict.contains l (hypotheses self)) eqn:E.
  - now rewrite app_nil_r.
  - apply NoDup_app; [exact Hwf | repeat constructor; simpl; tauto|].
    intros k Hin [<- | []].
    apply contains_in in Hin; congruence.
Qed.

Lemma run_adds_step (op : string * complex) (ops : list (string * complex))
  (self : SuperpositionMemory) :
  run_adds (op :: ops) self = run_adds ops (snd (add (fst op) (snd op) self)).
Proof.
  unfold run_adds; simpl; unfold bind; now rewrite add_eq.
Qed.

Lemma run_adds_wf (ops : list (string * complex))
  (self : SuperpositionMemory) :
  Dict.wf (hypotheses self) ->
  Dict.wf (hypotheses (snd (run_adds ops self))).
Proof.
  revert self; induction ops as [|op ops IH]; intros self Hwf;
    [exact Hwf|].
  rewrite run_adds_step; now apply IH, add_wf.
Qed.

(** X3: After a sequence of adds the stored labels are the labels stored before,
    in their places, followed by the labels the adds brought in: no label is
    lost and none appears that was not added. *)
Theorem run_adds_labels (self : SuperpositionMemory)
  (ops : list (string * complex)) :
  (exists suffix,
     Dict.keys (hypotheses (snd (run_adds ops self)))
     = Dict.keys (hypotheses self) ++ suffix) /\
  (forall k,
     In k (Dict.keys (hypotheses (snd (run_adds ops self))))
     <-> In k (Dict.keys (hypotheses self)) \/ In k (map fst ops)).
Proof.
  revert self; induction ops as [|[l a] ops IH]; intros self.
  - split; [exists []; now rewrite app_nil_r | simpl; tauto].
  - rewrite run_adds_step; simpl fst; simpl snd.
    destruct (IH (snd (add l a self))) as [[suffix Hsuf] Hin].
    assert (Hkeys :
      Dict.keys (hypotheses (snd (add l a self)))
      = Dict.keys (hypotheses self)
        ++ (if Dict.contains l (hypotheses self) then [] else [l]))
      by (rewrite add_hypotheses; apply keys_set).
    split.
    + rewrite Hsuf, Hkeys, <- app_assoc; eauto.
    + intros k; rewrite Hin, Hkeys, in_app_iff; simpl.
      destruct (Dict.contains l (hypotheses self)) eqn:E; simpl.
      * apply contains_in in E; split; [tauto|].
        intros [H | [<- | H]]; tauto.
      * tauto.
Qed.

Lemma normalise_wf (self : SuperpositionMemory) :
  Dict.wf (hypotheses self) -> Dict.wf (hypotheses (snd (normalise self))).
Proof.
  intros Hwf.
  destruct (Req_dec_T (total_mass (hypotheses self)) 0) as [H0 | H0].
  - now rewrite normalise_error_eq.
  - rewrite normalise_ok_eq by assumption; simpl.
    unfold Dict.wf, Dict.keys in *; now rewrite map_map.
Qed.

Lemma collapse_state (context : list (string * R))
  (self : SuperpositionMemory) :
  snd (collapse context self) = self.
Proof. rewrite collapse_sorted; now destruct (hd_error _). Qed.

(** X4: No method breaks the mapping: from a memory whose labels are pairwise
    distinct, [add], sequences of adds, [normalise], [collapse],
    [as_ranked_list] and [reset] all leave a memory whose labels are
    pairwise distinct, and the fresh memory is one. *)
Theorem methods_preserve_wf (self : SuperpositionMemory) :
  Dict.wf (hypotheses self) ->
  Dict.wf (hypotheses init) /\
  (forall l a, Dict.wf (hypotheses (snd (add l a self)))) /\
  (forall ops, Dict.wf (hypotheses (snd (run_adds ops self)))) /\
  Dict.wf (hypotheses (snd (normalise self))) /\
  (forall context, Dict.wf (hypotheses (snd (collapse context self)))) /\
  Dict.wf (hypotheses (snd (as_ranked_list self))) /\
  Dict.wf (hypotheses (snd (reset self))).
Proof.
  intros Hwf; repeat split.
  - constructor.
  - intros; now apply add_wf.
  - intros; now apply run_adds_wf.
  - now apply normalise_wf.
  - intros; now rewrite collapse_state.
  - exact Hwf.
  - constructor.
Qed.

Lemma methods_preserve_wf_witness :
  Dict.wf (hypotheses tie_memory) /\
  Dict.wf (hypotheses init) /\
  (forall l a, Dict.wf (hypotheses (snd (add l a tie_memory)))) /\
  (forall ops, Dict.wf (hypotheses (snd (run_adds ops tie_memory)))) /\
  Dict.wf (hypotheses (snd (normalise tie_memory))) /\
  (forall context,
     Dict.wf (hypotheses (snd (collapse context tie_memory)))) /\
  Dict.wf (hypotheses (snd (as_ranked_list tie_memory))) /\
  Dict.wf (hypotheses (snd (reset tie_memory))).
Proof.
  split; [exact tie_memory_wf|].
  exact (methods_preserve_wf tie_memory tie_memory_wf).
Defined.

(** [reset] forgets everything: whatever the memory held, a computation
    run after [reset] runs as on a fresh memory, so [normalise] and
    [collapse] raise their errors and the ranked list is empty. *)
Theorem reset_forgets (self : SuperpositionMemory)
  (context : list (string * R)) :
  (forall (A : Type) (c : M A), (reset ;;; c) self = c init) /\
  (reset ;;; normalise) self = (inl normalise_error, init) /\
  (reset ;;; collapse context) self = (inl collapse_error, init) /\
  (reset ;;; as_ranked_list) self = (inr [], init) /\
  (reset ;;; reset) self = reset self.
Proof.
  repeat split.
  apply normalise_error_eq; reflexivity.
Qed.

(** ** How [normalise], [collapse] and [as_ranked_list] compose *)




Lemma hd_error_in {A : Type} (l : list A) (x : A) :
  hd_error l = Some x -> In x l.
Proof. destruct l; simpl; [discriminate | intros [= ->]; now left]. Qed.

(** An element that beats everything before it strictly and everything
    after it weakly is the head of the sorted list. *)
Lemma sort_desc_head_of_split {A : Type} (key : A -> R) (pre post : list A)
  (b : A) :
  Forall (fun x => key x < key b) pre ->
  Forall (fun x => key x <= key b) post ->
  hd_error (PyList.sort_desc key (pre ++ b :: post)) = Some b.
Proof.
  intros Hpre Hpost; induction Hpre as [|x pre Hx Hpre IH]; simpl.
  - rewrite insert_desc_hd.
    destruct (hd_error (PyList.sort_desc key post)) as [t|] eqn:E;
      [|reflexivity].
    apply hd_error_in in E.
    apply (Permutation_in _ (sort_desc_perm key post)) in E.
    rewrite Forall_forall in Hpost; specialize (Hpost t E).
    destruct (Rlt_dec (key b) (key t)); [lra | reflexivity].
  - rewrite insert_desc_hd, IH.
    destruct (Rlt_dec (key x) (key b)); [reflexivity | lra].
Qed.

Lemma wf_split_labels {V : Type} (pre post : Dict.dict V)
  (item x : string * V) :
  Dict.wf (pre ++ item :: post) ->
  In x pre \/ In x post -> fst x <> fst item.
Proof.
  unfold Dict.wf, Dict.keys; rewrite map_app; simpl; intros Hnd Hin Heq.
  apply NoDup_remove_2 in Hnd; apply Hnd, in_or_app.
  rewrite <- Heq; destruct Hin as [Hin | Hin]; [left | right];
    now apply in_map.
Qed.

(** X9: Reinforcing the winner keeps it the winner: when [collapse] returns a
    hypothesis under one context, it returns the same hypothesis under
    every context that gives its label at least the same weight and leaves
    the weights of the other labels as they were. *)
Theorem collapse_reinforcement_keeps_winner (self : SuperpositionMemory)
  (context context' : list (string * R)) (h : hypothesis) :
  Dict.wf (hypotheses self) ->
  collapse context self = (inr h, self) ->
  context_weight context (label h) <= context_weight context' (label h) ->
  (forall k, k <> label h ->
     context_weight context' k = context_weight context k) ->
  collapse context' self = (inr h, self).
Proof.
  intros Hwf Hrun Hup Hsame.
  assert (Hne : hypotheses self <> []).
  { intros Hnil; rewrite collapse_sorted, Hnil in Hrun; discriminate. }
  destruct (collapse_first_max context self Hne)
    as (pre & item & post & Heq & Hrun' & Hpre & Hpost).
  assert (Hh : h = entry item) by congruence; subst h.
  rewrite Heq in Hwf.
  assert (Hwin : score context (entry item) <= score context' (entry item)).
  { assert (Hp : 0 <= probability (entry item))
      by (rewrite probability_norm_sq; apply norm_sq_nonneg).
    unfold score; nra. }
  assert (Hother : forall x, In x pre \/ In x post ->
    score context' (entry x) = score context (entry x)).
  { intros x Hin; unfold score; simpl.
    rewrite Hsame; [reflexivity|].
    exact (wf_split_labels pre post item x Hwf Hin). }
  rewrite collapse_sorted, Heq.
  rewrite (sort_desc_head_of_split
             (fun item => score context' (entry item)) pre post item).
  - reflexivity.
  - apply Forall_forall; intros x Hin.
    rewrite Forall_forall in Hpre; specialize (Hpre x Hin); simpl in Hpre.
    rewrite Hother by tauto; lra.
  - apply Forall_forall; intros x Hin.
    rewrite Forall_forall in Hpost; specialize (Hpost x Hin); simpl in Hpost.
    rewrite Hother by tauto; lra.
Qed.

Lemma tie_context_reinforced (k : string) :
  k <> "A"%string ->
  context_weight (tie_context ++ [("A"%string, 1)]) k
  = context_weight tie_context k.
Proof.
  intros Hk; unfold context_weight; rewrite last_weight_app.
  cbn [last_weight].
  destruct (String.eqb "A" k) eqn:E; [|reflexivity].
  apply String.eqb_eq in E; congruence.
Defined.

Lemma tie_context_weight_up :
  context_weight tie_context "A"
  <= context_weight (tie_context ++ [("A"%string, 1)]) "A".
Proof. unfold context_weight; simpl; lra. Defined.

Lemma collapse_reinforcement_keeps_winner_witness :
  Dict.wf (hypotheses tie_memory) /\
  collapse tie_context tie_memory
  = (inr (mkHypothesis "A" (mkC 1 0)), tie_memory) /\
  context_weight tie_context "A"
  <= context_weight (tie_context ++ [("A"%string, 1)]) "A" /\
  (forall k, k <> "A"%string ->
     context_weight (tie_context ++ [("A"%string, 1)]) k
     = context_weight tie_context k) /\
  collapse (tie_context ++ [("A"%string, 1)]) tie_memory
  = (inr (mkHypothesis "A" (mkC 1 0)), tie_memory).
Proof.
  split; [exact tie_memory_wf|].
  split; [exact collapse_tie_first_wins|].
  split; [exact tie_context_weight_up|].
  split; [exact tie_context_reinforced|].
  exact (collapse_reinforcement_keeps_winner tie_memory tie_context
           (tie_context ++ [("A"%string, 1)])
           (mkHypothesis "A" (mkC 1 0))
           tie_memory_wf collapse_tie_first_wins tie_context_weight_up
           tie_context_reinforced).
Defined.

(** ** The feature weights of the contextual reasoner *)

Lemma feature_step_weights3 (feature : string) (a b c : R) :
  feature_step (weights3 a b c) feature
  = inr (if String.eqb feature "redundant_sensor_agreement"
         then weights3 a (b - 0.25) c
         else if String.eqb feature "external_heat_source"
         then weights3 (a + 0.35) b c
         else if String.eqb feature "maintenance_recently_completed"
         then weights3 a b (c + 0.20)
         else weights3 a b c).
Proof.
  unfold feature_step.
  destruct (String.eqb feature "redundant_sensor_agreement");
    [reflexivity|].
  destruct (String.eqb feature "external_heat_source"); [reflexivity|].
  destruct (String.eqb feature "maintenance_recently_completed");
    reflexivity.
Qed.

Lemma occurrences_cons (known feature : string) (features : list string) :
  occurrences known (feature :: features)
  = occurrences known features
    + (if String.eqb feature known then 1 else 0).
Proof.
  unfold occurrences; simpl count_occ.
  destruct (string_dec feature known) as [Heq | Hne].
  - apply String.eqb_eq in Heq; rewrite Heq, S_INR; ring.
  - apply String.eqb_neq in Hne; rewrite Hne; ring.
Qed.

Lemma weights3_eq (a b c a' b' c' : R) :
  a = a' -> b = b' -> c = c' -> weights3 a b c = weights3 a' b' c'.
Proof. now intros -> -> ->. Qed.

Lemma feature_loop_weights3 (features : list string) (a b c : R) :
  feature_loop features (weights3 a b c)
  = inr (weights3
           (a + 0.35 * occurrences "external_heat_source" features)
           (b - 0.25 * occurrences "redundant_sensor_agreement" features)
           (c + 0.20 * occurrences "maintenance_recently_completed"
                         features)).
Proof.
  revert a b c; induction features as [|f features IH]; intros a b c.
  - simpl; f_equal; apply weights3_eq; unfold occurrences; simpl; ring.
  - cbn [feature_loop]; rewrite feature_step_weights3.
    rewrite !(occurrences_cons _ f).
    destruct (String.eqb f "redundant_sensor_agreement") eqn:E1.
    { apply String.eqb_eq in E1; subst f; rewrite IH.
      f_equal; apply weights3_eq;
        cbn [String.eqb Ascii.eqb Bool.eqb]; ring. }
    destruct (String.eqb f "external_heat_source") eqn:E2.
    { apply String.eqb_eq in E2; subst f; rewrite IH.
      f_equal; apply weights3_eq;
        cbn [String.eqb Ascii.eqb Bool.eqb]; ring. }
    destruct (String.eqb f "maintenance_recently_completed") eqn:E3.
    { apply String.eqb_eq in E3; subst f; rewrite IH.
      f_equal; apply weights3_eq;
        cbn [String.eqb Ascii.eqb Bool.eqb]; ring. }
    rewrite IH; f_equal; apply weights3_eq; ring.
Qed.

Lemma feature_to_context_eq (features : list string) :
  _feature_to_context features
  = inr (weights3
           (0.35 * occurrences "external_heat_source" features)
           (- (0.25 * occurrences "redundant_sensor_agreement" features))
           (0.20 * occurrences "maintenance_recently_completed" features)).
Proof.
  unfold _feature_to_context.
  change [("thermal anomaly"%string, 0); ("sensor fault"%string, 0);
          ("benign fluctuation"%string, 0)] with (weights3 0 0 0).
  rewrite feature_loop_weights3; f_equal; apply weights3_eq; ring.
Qed.

(** X10: [_feature_to_context] never raises; whatever the features, its result
    holds exactly the three labels, in their fixed order, "thermal anomaly"
    with 0.35 per "external_heat_source", "sensor fault" with -0.25 per
    "redundant_sensor_agreement" and "benign fluctuation" with 0.20 per
    "maintenance_recently_completed". *)
Theorem feature_to_context_weights (features : list string) :
  _feature_to_context features
  = inr [("thermal anomaly"%string,
          0.35 * occurrences "external_heat_source" features);
         ("sensor fault"%string,
          - (0.25 * occurrences "redundant_sensor_agreement" features));
         ("benign fluctuation"%string,
          0.20 * occurrences "maintenance_recently_completed" features)].
Proof.
  unfold _feature_to_context.
  change [("thermal anomaly"%string, 0); ("sensor fault"%string, 0);
          ("benign fluctuation"%string, 0)] with (weights3 0 0 0).
  rewrite feature_loop_weights3; unfold weights3.
  repeat (f_equal; try ring).
Qed.

Lemma occurrences_perm (known : string) (fs fs' : list string) :
  Permutation fs fs' -> occurrences known fs' = occurrences known fs.
Proof.
  intros H; unfold occurrences; f_equal; symmetry.
  now apply Permutation_count_occ.
Qed.

Lemma occurrences_known (known : string) (fs : list string) :
  known_feature known = true ->
  occurrences known (filter known_feature fs) = occurrences known fs.
Proof.
  intros Hk; induction fs as [|f fs IH]; [reflexivity|]; simpl filter.
  destruct (known_feature f) eqn:Ef.
  - now rewrite !occurrences_cons, IH.
  - rewrite occurrences_cons, IH.
    destruct (String.eqb f known) eqn:E; [|ring].
    apply String.eqb_eq in E; congruence.
Qed.

(** X11: The weights depend on the features only through how often each known
    feature occurs: reordering the features, or dropping the features the
    reasoner does not know, gives the same weights. *)
Theorem feature_to_context_order_free (fs fs' : list string) :
  Permutation fs fs' ->
  _feature_to_context fs' = _feature_to_context fs /\
  _feature_to_context (filter known_feature fs) = _feature_to_context fs.
Proof.
  intros Hperm; rewrite !feature_to_context_eq; split.
  - now rewrite !(occurrences_perm _ fs fs' Hperm).
  - now rewrite !occurrences_known.
Qed.

Lemma sample_features_permuted :
  Permutation sample_features
    ["external_heat_source"%string; "redundant_sensor_agreement"%string].
Proof. apply perm_swap. Defined.

Lemma feature_to_context_order_free_witness :
  Permutation sample_features
    ["external_heat_source"%string; "redundant_sensor_agreement"%string] /\
  _feature_to_context
    ["external_heat_source"%string; "redundant_sensor_agreement"%string]
  = _feature_to_context sample_features /\
  _feature_to_context (filter known_feature sample_features)
  = _feature_to_context sample_features.
Proof.
  split; [exact sample_features_permuted|].
  exact (feature_to_context_order_free sample_features _
           sample_features_permuted).
Defined.

(** ** [reason_about_signal] *)

Lemma norm_sq_pow_half (x : R) : norm_sq (pow_half x) = Rabs x.
Proof.
  unfold pow_half, norm_sq; destruct (Rle_dec 0 x) as [Hx | Hx]; simpl.
  - rewrite sqrt_sqrt by exact Hx; rewrite Rabs_right by lra; ring.
  - rewrite sqrt_sqrt by lra; rewrite Rabs_left by lra; ring.
Qed.

Lemma prior_amplitudes_mass (priors : Dict.dict R) :
  total_mass (prior_amplitudes priors) = prior_mass priors.
Proof.
  unfold total_mass, prior_mass, prior_amplitudes, Dict.values.
  rewrite !map_map; f_equal; apply map_ext; intros item; simpl.
  apply norm_sq_pow_half.
Qed.

Lemma prior_amplitudes_keys (priors : Dict.dict R) :
  Dict.keys (prior_amplitudes priors) = Dict.keys priors.
Proof. unfold prior_amplitudes, Dict.keys; now rewrite map_map. Qed.

Lemma prior_mass_zero (priors : Dict.dict R) :
  prior_mass priors = 0 <-> Forall (fun p => p = 0) (Dict.values priors).
Proof.
  unfold prior_mass, Dict.values; induction priors as [|[l p] d IH]; simpl.
  - split; auto.
  - assert (Hd : 0 <= fold_right Rplus 0 (map Rabs (map snd d))).
    { clear IH; induction d as [|[l' p'] d IHd]; simpl; [lra|].
      pose proof (Rabs_pos p'); lra. }
    pose proof (Rabs_pos p) as Hp.
    split.
    + intros H; constructor.
      * destruct (Req_dec_T p 0) as [|Hne]; [assumption|].
        apply Rabs_pos_lt in Hne; lra.
      * apply IH; lra.
    + intros H; apply Forall_cons_iff in H; destruct H as [-> H].
      apply IH in H; rewrite Rabs_R0; lra.
Qed.

(** The adds of [reason_about_signal] store one amplitude per prior, in the
    order of the priors. *)
Lemma adds_of_priors (rest : Dict.dict R) (d : Dict.dict complex) :
  NoDup (Dict.keys d ++ Dict.keys rest) ->
  for_each (Dict.items rest)
    (fun item => let '(label, prior) := item in add label (pow_half prior))
    (mkMemory d)
  = (inr tt, mkMemory (d ++ prior_amplitudes rest)).
Proof.
  revert d; induction rest as [|[l p] rest IH]; intros d Hnd.
  - simpl; now rewrite app_nil_r.
  - cbn [Dict.items for_each]; unfold bind; rewrite add_eq.
    cbn [hypotheses].
    assert (Hfresh : Dict.get l d = None).
    { apply get_none_notin; intros Hin.
      simpl in Hnd; apply NoDup_remove_2 in Hnd.
      apply Hnd, in_or_app; now left. }
    rewrite Hfresh.
    change (Dict.items rest) with rest in IH; unfold Dict.items.
    rewrite IH.
    + unfold prior_amplitudes; simpl; now rewrite <- app_assoc.
    + unfold Dict.keys in *; rewrite map_app, <- app_assoc; exact Hnd.
Qed.

(** What [reason_about_signal] runs after its adds. *)
Lemma reason_about_signal_eq (priors : Dict.dict R) (features : list string) :
  Dict.wf priors ->
  reason_about_signal priors features
  = fst ((normalise ;;;
          collapse
            (Dict.items
               (weights3
                  (0.35 * occurrences "external_heat_source" features)
                  (- (0.25 * occurrences "redundant_sensor_agreement"
                               features))
                  (0.20 * occurrences "maintenance_recently_completed"
                            features))))
           (mkMemory (prior_amplitudes priors))).
Proof.
  intros Hwf; unfold reason_about_signal.
  rewrite feature_to_context_eq.
  unfold bind at 1; unfold init.
  rewrite (adds_of_priors priors []) by exact Hwf.
  reflexivity.
Qed.

Lemma prior_amplitudes_wf (priors : Dict.dict R) :
  Dict.wf priors -> Dict.wf (prior_amplitudes priors).
Proof. unfold Dict.wf; now rewrite prior_amplitudes_keys. Qed.

(** X12: [reason_about_signal] raises exactly when every prior is zero, which
    includes the empty priors, and the error is the one of [normalise]. *)
Theorem reason_about_signal_raises_iff (priors : Dict.dict R)
  (features : list string) :
  Dict.wf priors ->
  (reason_about_signal priors features = inl normalise_error
   <-> Forall (fun p => p = 0) (Dict.values priors)) /\
  ((exists e, reason_about_signal priors features = inl e)
   <-> Forall (fun p => p = 0) (Dict.values priors)).
Proof.
  intros Hwf; rewrite reason_about_signal_eq by exact Hwf.
  rewrite <- prior_mass_zero, <- prior_amplitudes_mass.
  unfold bind.
  destruct (Req_dec_T (total_mass (prior_amplitudes priors)) 0)
    as [H0 | H0].
  - rewrite normalise_error_eq by exact H0; simpl.
    split; [tauto|]; split; [tauto | intros _; now exists normalise_error].
  - pose proof (prior_amplitudes_wf priors Hwf) as Hwf'.
    rewrite (normalise_scaled (mkMemory (prior_amplitudes priors)))
      by assumption.
    match goal with
    | |- context [collapse ?c ?m] =>
        destruct (collapse_first_max c m) as (pre & w & post & _ & Hrun & _)
    end.
    { simpl; destruct (prior_amplitudes priors); [|discriminate].
      exfalso; now apply H0. }
    rewrite Hrun; simpl.
    split; split; try tauto; try discriminate.
    intros [e He]; discriminate.
Qed.

Lemma sample_priors_wf : Dict.wf sample_priors.
Proof.
  unfold Dict.wf; simpl; repeat constructor; simpl; intuition discriminate.
Defined.

Lemma reason_about_signal_raises_iff_witness :
  Dict.wf sample_priors /\
  (reason_about_signal sample_priors sample_features = inl normalise_error
   <-> Forall (fun p => p = 0) (Dict.values sample_priors)) /\
  ((exists e, reason_about_signal sample_priors sample_features = inl e)
   <-> Forall (fun p => p = 0) (Dict.values sample_priors)).
Proof.
  split; [exact sample_priors_wf|].
  exact (reason_about_signal_raises_iff sample_priors sample_features
           sample_priors_wf).
Defined.

(** X14: [reason_about_signal] sees the features only through the counts of the
    known ones: reordering them, or dropping the unknown ones, gives the
    same outcome. *)
Theorem reason_about_signal_order_free (priors : Dict.dict R)
  (fs fs' : list string) :
  Permutation fs fs' ->
  reason_about_signal priors fs' = reason_about_signal priors fs /\
  reason_about_signal priors (filter known_feature fs)
  = reason_about_signal priors fs.
Proof.
  intros Hperm; unfold reason_about_signal.
  rewrite !feature_to_context_eq.
  rewrite !(occurrences_perm _ fs fs' Hperm).
  rewrite !occurrences_known by reflexivity.
  split; reflexivity.
Qed.

Lemma reason_about_signal_order_free_witness :
  Permutation sample_features
    ["external_heat_source"%string; "redundant_sensor_agreement"%string] /\
  reason_about_signal sample_priors
    ["external_heat_source"%string; "redundant_sensor_agreement"%string]
  = reason_about_signal sample_priors sample_features /\
  reason_about_signal sample_priors (filter known_feature sample_features)
  = reason_about_signal sample_priors sample_features.
Proof.
  split; [exact sample_features_permuted|].
  exact (reason_about_signal_order_free sample_priors sample_features _
           sample_features_permuted).
Defined.

(** ** [run_demo] *)

Lemma demo_memory_wf : Dict.wf (hypotheses demo_memory).
Proof.
  unfold Dict.wf; simpl; repeat constructor; simpl; intuition discriminate.
Qed.

Lemma demo_memory_mass : total_mass (hypotheses demo_memory) = 0.47.
Proof. unfold total_mass, norm_sq; simpl; lra. Qed.

Lemma demo_adds {A : Type} (k : M A) :
  (add "thermal anomaly" (mkC 0.6 0.1) ;;;
   add "sensor fault" (Complex.of_float 0.3) ;;;
   add "benign fluctuation" (Complex.of_float 0.1) ;;; k) init
  = k demo_memory.
Proof. reflexivity. Qed.

(** X15: [run_demo] does not raise and returns the three hypotheses in the
    order "thermal anomaly", "sensor fault", "benign fluctuation", with the
    probabilities 37/47, 9/47 and 1/47. *)
Theorem run_demo_ranking :
  exists a1 a2 a3,
    run_demo
    = inr [mkHypothesis "thermal anomaly" a1;
           mkHypothesis "sensor fault" a2;
           mkHypothesis "benign fluctuation" a3] /\
    probability (mkHypothesis "thermal anomaly" a1) = 37 / 47 /\
    probability (mkHypothesis "sensor fault" a2) = 9 / 47 /\
    probability (mkHypothesis "benign fluctuation" a3) = 1 / 47.
Proof.
  assert (H0 : total_mass (hypotheses demo_memory) <> 0)
    by (rewrite demo_memory_mass; lra).
  pose proof demo_memory_wf as Hwf.
  pose proof (sqrt_mass_pos _ H0) as Hs.
  set (c := / sqrt (total_mass (hypotheses demo_memory))).
  assert (Hc : 0 < c) by (apply Rinv_0_lt_compat; exact Hs).
  assert (Hcc : c * c = / 0.47).
  { unfold c; rewrite <- Rinv_mult, sqrt_sqrt, demo_memory_mass;
      [reflexivity | rewrite demo_memory_mass; lra]. }
  exists (scale_by c (mkC 0.6 0.1)), (scale_by c (Complex.of_float 0.3)),
         (scale_by c (Complex.of_float 0.1)).
  split.
  - unfold run_demo; rewrite demo_adds.
    unfold bind at 1.
    rewrite (normalise_scaled demo_memory Hwf H0); fold c.
    unfold bind.
    match goal with
    | |- context [collapse ?ctx ?m] =>
        destruct (collapse_first_max ctx m) as (? & w & ? & _ & Hrun & _);
          [discriminate | rewrite Hrun]
    end.
    rewrite as_ranked_list_eq; cbn [fst hypotheses]; f_equal.
    assert (Hlt : forall h1 h2,
      probability h1 < probability h2
      <-> probability (rescale c h1) < probability (rescale c h2)).
    { intros h1 h2; rewrite !probability_rescale; split; intros; nra. }
    rewrite map_map.
    change (map (fun x => entry (fst x, scale_by c (snd x)))
                (hypotheses demo_memory))
      with (map (rescale c) (map entry (hypotheses demo_memory))).
    rewrite (sort_desc_map probability probability (rescale c)) by exact Hlt.
    simpl; decide_rlt; simpl; decide_rlt; reflexivity.
  - change (mkHypothesis "thermal anomaly" (scale_by c (mkC 0.6 0.1)))
      with (rescale c (mkHypothesis "thermal anomaly" (mkC 0.6 0.1))).
    change (mkHypothesis "sensor fault"
              (scale_by c (Complex.of_float 0.3)))
      with (rescale c (mkHypothesis "sensor fault" (Complex.of_float 0.3))).
    change (mkHypothesis "benign fluctuation"
              (scale_by c (Complex.of_float 0.1)))
      with (rescale c
              (mkHypothesis "benign fluctuation" (Complex.of_float 0.1))).
    rewrite !probability_rescale, Hcc.
    unfold probability; simpl; repeat split; lra.
Qed.

(** * The claims that depend on the arithmetic, in binary64 *)

Module Binary64Facts.
Import PrimFloat Binary64.
Local Open Scope float_scope.

(** ** What the methods compute *)

Lemma add_eq_f64 (l : string) (a : complex) (self : SuperpositionMemory) :
  add l a self
  = (inr tt,
     mkMemory (match Dict.get l (hypotheses self) with
               | None => hypotheses self ++ [(l, a)]
               | Some old => Dict.set l (complex_add old a) (hypotheses self)
               end)).
Proof.
  unfold add, bind, get_hypotheses, getitem, bind, get_hypotheses,
    Dict.contains, setitem, ret.
  destruct (Dict.get l (hypotheses self)) eqn:E; simpl; rewrite ?E.
  - reflexivity.
  - now rewrite set_fresh.
Qed.

Lemma run_adds_cons_f64 (op : string * complex)
  (ops : list (string * complex)) (self : SuperpositionMemory) :
  run_adds (op :: ops) self
  = run_adds ops
      (mkMemory (match Dict.get (fst op) (hypotheses self) with
                 | None => hypotheses self ++ [op]
                 | Some old =>
                     Dict.set (fst op) (complex_add old (snd op))
                              (hypotheses self)
                 end)).
Proof.
  unfold run_adds; simpl; unfold bind; rewrite add_eq_f64.
  now destruct op.
Qed.

Lemma run_adds_get_f64 (l : string) (ops : list (string * complex))
  (self : SuperpositionMemory) :
  fst (run_adds ops self) = inr tt /\
  Dict.get l (hypotheses (snd (run_adds ops self)))
  = accumulated l (hypotheses self) ops.
Proof.
  revert self; induction ops as [|[k a] ops IH]; intros self.
  - unfold accumulated; simpl; split; [reflexivity|].
    now destruct (Dict.get l (hypotheses self)).
  - rewrite run_adds_cons_f64; simpl fst; simpl snd.
    match goal with
    | |- context [run_adds ops ?m] => destruct (IH m) as [Hok Hget]
    end.
    split; [exact Hok|]; rewrite Hget; clear IH Hok Hget.
    unfold accumulated, supplied; simpl hypotheses; simpl filter.
    destruct (String.eqb k l) eqn:E.
    + apply String.eqb_eq in E; subst k; simpl map.
      destruct (Dict.get l (hypotheses self)) as [a0|] eqn:E0.
      * rewrite get_set_same; reflexivity.
      * rewrite <- (set_fresh l a _ E0), get_set_same; reflexivity.
    + apply String.eqb_neq in E.
      destruct (Dict.get k (hypotheses self)) eqn:Ek.
      * rewrite get_set_other by exact E; reflexivity.
      * rewrite <- (set_fresh k a _ Ek), get_set_other by exact E.
        reflexivity.
Qed.

Lemma for_each_setitem_f64 (f : complex -> complex)
  (items : list (string * complex)) (self : SuperpositionMemory) :
  for_each items
    (fun item => let '(label, amplitude) := item in
                 setitem label (f amplitude)) self
  = (inr tt,
     mkMemory (fold_left
                 (fun acc item => Dict.set (fst item) (f (snd item)) acc)
                 items (hypotheses self))).
Proof.
  revert self; induction items as [|[l a] items IH]; intros self; simpl.
  - now destruct self.
  - unfold bind, setitem at 1; rewrite IH; reflexivity.
Qed.

Lemma normalise_error_f64 (self : SuperpositionMemory) :
  (total_probability (hypotheses self) =? 0) = true ->
  normalise self = (inl normalise_error, self).
Proof.
  intros H0; unfold total_probability in H0.
  unfold normalise, bind, get_hypotheses; cbv beta iota zeta.
  now rewrite H0.
Qed.

Lemma normalise_fold_f64 (self : SuperpositionMemory) :
  (total_probability (hypotheses self) =? 0) = false ->
  normalise self
  = (inr tt,
     mkMemory
       (fold_left
          (fun acc item =>
             Dict.set (fst item)
               (complex_div (snd item)
                  (pow_half (total_probability (hypotheses self))))
               acc)
          (hypotheses self) (hypotheses self))).
Proof.
  intros H0; unfold total_probability in *.
  unfold normalise, bind, get_hypotheses; cbv beta iota zeta.
  rewrite H0; unfold Dict.items.
  exact (for_each_setitem_f64
           (fun a => complex_div a
                       (pow_half (total_probability (hypotheses self))))
           (hypotheses self) self).
Qed.




(** ** [normalise] *)




(** Rounding alone already misses 1: on the amplitudes 1 and i the
    probabilities after [normalise] sum to the second float below 1. *)
Example normalise_unit_memory_sum :
  sum (map probability
         (map entry (hypotheses (snd (normalise unit_memory)))))
  = next_down (next_down 1).
Proof. vm_compute; reflexivity. Qed.

Lemma zero_amplitude_probability (a : complex) :
  zero_amplitude a ->
  real (complex_mul (complex_conjugate a) a) = 0.
Proof.
  destruct a as [re im]; unfold zero_amplitude; simpl.
  intros [[-> | ->] [-> | ->]]; vm_compute; reflexivity.
Qed.

Lemma zero_amplitudes_mass (d : Dict.dict complex) :
  Forall zero_amplitude (Dict.values d) -> total_probability d = 0.
Proof.
  unfold total_probability, sum, Dict.values.
  assert (H : forall amps,
    Forall zero_amplitude amps ->
    fold_left PrimFloat.add
      (map (fun amp => real (complex_mul (complex_conjugate amp) amp)) amps)
      0 = 0).
  { induction 1 as [|a amps Ha Hamps IH]; cbn [map fold_left];
      [reflexivity|].
    rewrite (zero_amplitude_probability a Ha).
    change (0 + 0) with 0; exact IH. }
  intros Hall; now apply H.
Qed.

(** C4, as the code has it: [normalise] raises its error, and then leaves
    the stored state as it was, exactly when the computed total mass is
    zero, and it raises nothing else; the empty mapping and the mappings
    whose amplitudes are all zero have mass zero.  They are not the only
    ones, as the next lemma shows. *)
Theorem normalise_raises_iff_mass_zero (self : SuperpositionMemory) :
  ((fst (normalise self) = inl normalise_error /\ snd (normalise self) = self)
   <-> (total_probability (hypotheses self) =? 0) = true) /\
  ((exists e, fst (normalise self) = inl e)
   <-> (total_probability (hypotheses self) =? 0) = true) /\
  (hypotheses self = [] ->
   (total_probability (hypotheses self) =? 0) = true) /\
  (Forall zero_amplitude (Dict.values (hypotheses self)) ->
   (total_probability (hypotheses self) =? 0) = true).
Proof.
  assert (Hzero :
    Forall zero_amplitude (Dict.values (hypotheses self)) ->
    (total_probability (hypotheses self) =? 0) = true).
  { intros Hall; rewrite (zero_amplitudes_mass _ Hall); reflexivity. }
  destruct (total_probability (hypotheses self) =? 0) eqn:H0.
  - rewrite (normalise_error_f64 self H0); simpl.
    split; [tauto|]; split; [|tauto].
    split; [tauto | intros _; now exists normalise_error].
  - rewrite (normalise_fold_f64 self H0); simpl.
    split; [|split; [|split]].
    + split; [intros [? _]; discriminate | discriminate].
    + split; [intros [e ?]; discriminate | discriminate].
    + intros Hnil; rewrite Hnil in Hzero; apply Hzero; constructor.
    + exact Hzero.
Qed.

(** C4 fails as stated: the memory holding the one amplitude 2^-600 is not
    empty and its amplitude is not zero, yet its computed mass is zero and
    [normalise] raises. *)
Lemma normalise_raises_on_nonzero_amplitude :
  hypotheses underflow_memory <> [] /\
  ~ Forall zero_amplitude (Dict.values (hypotheses underflow_memory)) /\
  (total_probability (hypotheses underflow_memory) =? 0) = true /\
  normalise underflow_memory = (inl normalise_error, underflow_memory).
Proof.
  split; [discriminate|]; split; [|split].
  - intros H; apply Forall_inv in H; destruct H as [[H | H] _];
      simpl in H; apply (f_equal (fun x => x =? 0)) in H;
      vm_compute in H; discriminate.
  - vm_compute; reflexivity.
  - apply normalise_error_f64; vm_compute; reflexivity.
Qed.

(** The all-zero memories of either sign do raise. *)
Example normalise_signed_zeros :
  normalise (mkMemory [("A"%string, mkC 0 (-0)); ("B"%string, mkC (-0) 0)])
  = (inl normalise_error,
     mkMemory [("A"%string, mkC 0 (-0)); ("B"%string, mkC (-0) 0)]).
Proof. apply normalise_error_f64; vm_compute; reflexivity. Qed.

(** ** [add] *)

(** C6, as the code has it: a sequence of [add] calls never raises;
    afterwards the amplitude at a label is the sum, taken from the left in
    the order of the calls, of the amplitudes supplied for it, started from
    the amplitude the label held or else from the first one supplied; the
    adds of other labels play no part; and an [add] of a label that is not
    stored appends a new entry.  The sum depends on the order of the adds,
    as the next lemma shows. *)
Theorem add_accumulates_in_order (self : SuperpositionMemory)
  (ops : list (string * complex)) (l : string) :
  fst (run_adds ops self) = inr tt /\
  Dict.get l (hypotheses (snd (run_adds ops self)))
  = accumulated l (hypotheses self) ops /\
  Dict.get l (hypotheses (snd (run_adds ops init)))
  = match supplied l ops with
    | [] => None
    | a :: rest => Some (fold_left complex_add rest a)
    end /\
  (forall a,
     add l a self
     = (inr tt,
        mkMemory (match Dict.get l (hypotheses self) with
                  | None => hypotheses self ++ [(l, a)]
                  | Some old =>
                      Dict.set l (complex_add old a) (hypotheses self)
                  end))).
Proof.
  destruct (run_adds_get_f64 l ops self) as [Hok Hget].
  destruct (run_adds_get_f64 l ops init) as [_ Hget0].
  split; [exact Hok|]; split; [exact Hget|]; split; [exact Hget0|].
  intros a; apply add_eq_f64.
Qed.

(** C6 fails as stated: the adds of 1, 10^16 and -10^16 to a fresh label
    leave the amplitude 0, the same adds with the 1 last leave 1. *)
Lemma add_order_changes_sum :
  Permutation adds_small_first adds_small_last /\
  Dict.get "A" (hypotheses (snd (run_adds adds_small_first init)))
  = Some (mkC 0 0) /\
  Dict.get "A" (hypotheses (snd (run_adds adds_small_last init)))
  = Some (mkC 1 0) /\
  Dict.get "A" (hypotheses (snd (run_adds adds_small_first init)))
  <> Dict.get "A" (hypotheses (snd (run_adds adds_small_last init))).
Proof.
  split; [|split; [|split]].
  - apply (Permutation_cons_append
             [("A"%string, mkC 1e16 0); ("A"%string, mkC (-1e16) 0)]).
  - vm_compute; reflexivity.
  - vm_compute; reflexivity.
  - intros H.
    apply (f_equal (fun o => match o with
                             | Some a => real a =? 0
                             | None => false
                             end)) in H.
    vm_compute in H; discriminate.
Qed.

(** ** [normalise] and [as_ranked_list] *)







(** The collision does not hang on the last place of the scale: the two
    amplitudes of [close_memory] have the same quotient by the scale and
    by its two neighbours. *)
Example close_amplitudes_merge :
  let scale := pow_half (total_probability (hypotheses close_memory)) in
  0x1.fp+0 / scale = 0x1.f000000000001p+0 / scale /\
  0x1.fp+0 / next_up scale = 0x1.f000000000001p+0 / next_up scale /\
  0x1.fp+0 / next_down scale = 0x1.f000000000001p+0 / next_down scale.
Proof. repeat split; vm_compute; reflexivity. Qed.

End Binary64Facts.
